(** * Monoscope: video to colour ASCII art in the terminal

    A shallow embedding of [main.go] and the properties of its frame
    deserializer, glyph renderer, geometry resolver and playback loop.

    Conventions of the embedding
    - Go [int] is a 64-bit two's complement integer: a [Z] with the
      wrap-around of every operation written out ([wrap_int]).
    - [uint8] and [uint32] values are [Z] reduced modulo [2^8] and [2^32].
    - [float64] is Rocq's primitive binary64 [float]; every operation rounds
      once, to nearest even, as the Go compiler emits it for amd64 (no fused
      multiply-add).
    - A call that can panic returns a [run]; the playback loop, which Go runs
      until the stream fails, takes fuel.
    - Output is a trace of [event]s; deferred calls are kept on a stack that
      [os.Exit] does not run. *)

From Stdlib Require Import ZArith Lia List Bool Ascii String DecimalString.
From Stdlib Require Import Floats Uint63.
From stdpp Require Import base list.

Set Default Proof Using "Type".
Local Open Scope string_scope.
Local Open Scope Z_scope.

(* ================================================================= *)
(** ** Go integers *)

Module GoInt.

Definition int_min : Z := - 2 ^ 63.
Definition int_max : Z := 2 ^ 63 - 1.

(** The value an [int] holds after an operation whose exact result is [z]. *)
Definition wrap_int (z : Z) : Z := (z + 2 ^ 63) mod 2 ^ 64 - 2 ^ 63.

Definition in_int (z : Z) : Prop := int_min <= z <= int_max.

Definition add (a b : Z) : Z := wrap_int (a + b).
Definition sub (a b : Z) : Z := wrap_int (a - b).
Definition mul (a b : Z) : Z := wrap_int (a * b).

(** [uint8(x)]: the low 8 bits. *)
Definition to_uint8 (x : Z) : Z := x mod 2 ^ 8.
(** [uint32(x)]: the low 32 bits. *)
Definition to_uint32 (x : Z) : Z := x mod 2 ^ 32.

Definition is_uint8 (x : Z) : Prop := 0 <= x <= 255.

End GoInt.

Import GoInt.

(* ================================================================= *)
(** ** Results of calls that may panic *)

Inductive run (A : Type) : Type :=
| Ret (a : A)
| Panic (why : string)
| OutOfFuel.

Arguments Ret {A} a.
Arguments Panic {A} why.
Arguments OutOfFuel {A}.

Definition bind {A B : Type} (m : run A) (k : A -> run B) : run B :=
  match m with
  | Ret a => k a
  | Panic why => Panic why
  | OutOfFuel => OutOfFuel
  end.

Notation "x <- m ;; k" := (bind m (fun x => k))
  (at level 100, m at next level, right associativity).

(** [for i := lo; i < lo + count; i++ { s = body(i, s) }], a panic in the body
    ending the loop. *)
Fixpoint for_range {S : Type} (count : nat) (lo : Z)
    (body : Z -> S -> run S) (s : S) : run S :=
  match count with
  | O => Ret s
  | Datatypes.S count' => s' <- body lo s ;; for_range count' (lo + 1) body s'
  end.

(** [for i := lo; i < hi; i++]. *)
Definition for_lt {S : Type} (lo hi : Z) (body : Z -> S -> run S) (s : S) : run S :=
  for_range (Z.to_nat (hi - lo)) lo body s.

(* ================================================================= *)
(** ** Strings and formatting *)

(** The escape character, written [\033] in the source. *)
Definition ESC : string := String (ascii_of_nat 27) "".
Definition LF : string := String (ascii_of_nat 10) "".

(** [len(s)] *)
Definition len_string (s : string) : Z := Z.of_nat (String.length s).

(** The verb [%d] of [fmt]. *)
Definition fmt_d (z : Z) : string := NilZero.string_of_int (Z.to_int z).

(** [s[i]]: indexing out of range panics. *)
Definition string_index (s : string) (i : Z) : run ascii :=
  if (i <? 0) || (len_string s <=? i) then Panic "index out of range"
  else match String.get (Z.to_nat i) s with
       | Some c => Ret c
       | None => Panic "index out of range"
       end.

(* ================================================================= *)
(** ** float64 *)

(** [float64(n)] for an integer [0 <= n < 2^63]; exact below [2^53]. *)
Definition float64_of_int (n : Z) : float := PrimFloat.of_uint63 (Uint63.of_Z n).

(** [int(f)]: the fraction is discarded (truncation towards zero).  Go leaves
    the result open when the value does not fit or is not a number; amd64
    yields the smallest [int] there. *)
Definition int_of_float64 (f : float) : Z :=
  match Prim2SF f with
  | S754_zero _ => 0
  | S754_finite s m e =>
      let v := if 0 <=? e then Z.pos m * 2 ^ e else Z.pos m / 2 ^ (- e) in
      let t := if s then - v else v in
      if (int_min <=? t) && (t <=? int_max) then t else int_min
  | S754_infinity _ | S754_nan => int_min
  end.

(* ================================================================= *)
(** ** Constants of the program *)

Definition ASCII_CHARS : string := " .:-=+*#%@".
Definition FPS : Z := 24.

(* ================================================================= *)
(** ** Geometry resolver *)

Inductive error : Type :=
| EOF
| Err (msg : string).

(** What [term.GetSize] hands back: [(width, height, err)]. *)
Definition size_query : Type := Z * Z * option error.

Definition getTerminalSize (q : size_query) : Z * Z :=
  let '(width, height, err) := q in
  match err with
  | Some _ => (160, 50)
  | None => (width, GoInt.sub height 2)
  end.

(* ================================================================= *)
(** ** Glyph renderer: one pixel *)

Definition rgbToAnsi (r g b : Z) : string :=
  (ESC ++ "[38;2;" ++ fmt_d r ++ ";" ++ fmt_d g ++ ";" ++ fmt_d b ++ "m")%string.

(** The index [brightnessToASCII] computes, after its upper clamp. *)
Definition glyph_index (brightness : float) : Z :=
  let idx := int_of_float64 (brightness * float64_of_int (len_string ASCII_CHARS - 1)) in
  if len_string ASCII_CHARS <=? idx then len_string ASCII_CHARS - 1 else idx.

Definition brightnessToASCII (brightness : float) : run ascii :=
  string_index ASCII_CHARS (glyph_index brightness).

(** The luminance [frameToASCII] computes for the 8-bit channels of a pixel. *)
#[warnings="-inexact-float"]
Definition luminance (r8 g8 b8 : Z) : float :=
  ((0.299 * float64_of_int r8 + 0.587 * float64_of_int g8
    + 0.114 * float64_of_int b8) / 255.0)%float.

(* ================================================================= *)
(** ** Slices of bytes *)

Definition len {A : Type} (l : list A) : Z := Z.of_nat (length l).

(** [make([]byte, n)]: a negative length panics. *)
Definition make_bytes (n : Z) : run (list Z) :=
  if n <? 0 then Panic "makeslice: len out of range"
  else Ret (replicate (Z.to_nat n) 0).

(** [data[i]]: indexing out of range panics. *)
Definition index (data : list Z) (i : Z) : run Z :=
  if i <? 0 then Panic "index out of range"
  else match data !! Z.to_nat i with
       | Some b => Ret b
       | None => Panic "index out of range"
       end.

(* ================================================================= *)
(** ** The packages [image] and [image/color], as far as the program uses them *)

Module Img.

Record Point : Type := mkPoint { X : Z; Y : Z }.
Record Rectangle : Type := mkRectangle { Min : Point; Max : Point }.

(** [image.Rect]: the corners are put in order. *)
Definition Rect (x0 y0 x1 y1 : Z) : Rectangle :=
  let '(x0, x1) := if x1 <? x0 then (x1, x0) else (x0, x1) in
  let '(y0, y1) := if y1 <? y0 then (y1, y0) else (y0, y1) in
  mkRectangle (mkPoint x0 y0) (mkPoint x1 y1).

Definition Dx (r : Rectangle) : Z := GoInt.sub (X (Max r)) (X (Min r)).
Definition Dy (r : Rectangle) : Z := GoInt.sub (Y (Max r)) (Y (Min r)).

(** [Point.In] *)
Definition In (p : Point) (r : Rectangle) : bool :=
  (X (Min r) <=? X p) && (X p <? X (Max r)) &&
  (Y (Min r) <=? Y p) && (Y p <? Y (Max r)).

(** The struct [color.RGBA]. *)
Record RGBA : Type := mkRGBA { R : Z; G : Z; B : Z; A : Z }.

(** The interface [color.Color]: a value with the method [RGBA()], which
    yields four 16-bit channels in [uint32]s. *)
Record Color : Type := mkColor { Color_RGBA : Z * Z * Z * Z }.

(** [color.RGBA] implements [color.Color]: each channel [c] becomes
    [c | c << 8]. *)
Definition widen (c : Z) : Z :=
  let r := to_uint32 c in Z.lor r (to_uint32 (Z.shiftl r 8)).

Definition RGBA_Color (c : RGBA) : Color :=
  mkColor (widen (R c), widen (G c), widen (B c), widen (A c)).

(** The interface [image.Image], without [ColorModel], which the program
    never calls. *)
Record Image : Type := mkImage { Bounds : Rectangle; At : Z -> Z -> run Color }.

(** The struct [image.RGBA]. *)
Record RGBAImage : Type := mkRGBAImage { Pix : list Z; Stride : Z; Rect_ : Rectangle }.

Definition mul3NonNeg (x y z : Z) : Z :=
  if (x <? 0) || (y <? 0) || (z <? 0) then -1
  else if 2 ^ 64 <=? x * y then -1
  else if 2 ^ 64 <=? x * y * z then -1
  else if 2 ^ 63 <=? x * y * z then -1
  else x * y * z.

(** [image.NewRGBA] *)
Definition NewRGBA (r : Rectangle) : run RGBAImage :=
  let totalLength := mul3NonNeg 4 (Dx r) (Dy r) in
  if totalLength <? 0
  then Panic "image: NewRGBA Rectangle has huge or negative dimensions"
  else Ret (mkRGBAImage (replicate (Z.to_nat totalLength) 0)
                        (GoInt.mul 4 (Dx r)) r).

Definition PixOffset (p : RGBAImage) (x y : Z) : Z :=
  GoInt.add (GoInt.mul (GoInt.sub y (Y (Min (Rect_ p)))) (Stride p))
            (GoInt.mul (GoInt.sub x (X (Min (Rect_ p)))) 4).

(** The slice expression [p.Pix[i : i+4 : i+4]] panics out of range. *)
Definition in_Pix (p : RGBAImage) (i : Z) : bool :=
  (0 <=? i) && (i + 4 <=? len (Pix p)).

(** The method [Set] of [image.RGBA] with a [color.RGBA], which the colour model of
    the image leaves as it is. *)
Definition Set_ (p : RGBAImage) (x y : Z) (c : RGBA) : run RGBAImage :=
  if negb (In (mkPoint x y) (Rect_ p)) then Ret p
  else
    let i := PixOffset p x y in
    if negb (in_Pix p i) then Panic "slice bounds out of range"
    else
      let n := Z.to_nat i in
      Ret (mkRGBAImage
             (<[(n + 3)%nat := A c]> (<[(n + 2)%nat := B c]>
               (<[(n + 1)%nat := G c]> (<[n := R c]> (Pix p)))))
             (Stride p) (Rect_ p)).

(** The method [RGBAAt] of [image.RGBA], which its [At] returns. *)
Definition RGBAAt (p : RGBAImage) (x y : Z) : run RGBA :=
  if negb (In (mkPoint x y) (Rect_ p)) then Ret (mkRGBA 0 0 0 0)
  else
    let i := PixOffset p x y in
    if negb (in_Pix p i) then Panic "slice bounds out of range"
    else
      let n := Z.to_nat i in
      let s k := default 0 (Pix p !! (n + k)%nat) in
      Ret (mkRGBA (s 0%nat) (s 1%nat) (s 2%nat) (s 3%nat)).

(** A pointer to an [image.RGBA] implements [image.Image]. *)
Definition as_Image (p : RGBAImage) : Image :=
  mkImage (Rect_ p) (fun x y => c <- RGBAAt p x y ;; Ret (RGBA_Color c)).

End Img.

(* ================================================================= *)
(** ** Glyph renderer: one frame *)

(** The [strings.Builder] is the accumulated text. *)
Definition frameToASCII (img : Img.Image) : run string :=
  let bounds := Img.Bounds img in
  for_lt (Img.Y (Img.Min bounds)) (Img.Y (Img.Max bounds)) (fun y builder =>
    builder <- for_lt (Img.X (Img.Min bounds)) (Img.X (Img.Max bounds))
      (fun x builder =>
         c <- Img.At img x y ;;
         let '(r, g, b, _) := Img.Color_RGBA c in
         let r8 := to_uint8 (Z.shiftr r 8) in
         let g8 := to_uint8 (Z.shiftr g 8) in
         let b8 := to_uint8 (Z.shiftr b 8) in
         let brightness := luminance r8 g8 b8 in
         char <- brightnessToASCII brightness ;;
         Ret (builder ++ rgbToAnsi r8 g8 b8 ++ String char "")%string)
      builder ;;
    Ret (builder ++ ESC ++ "[0m" ++ LF)%string) ""%string.

(* ================================================================= *)
(** ** The byte stream of the decoder *)

(** One delivery of the stream: the bytes that arrive together and the error,
    if any, that the stream reports with their last byte. *)
Record delivery : Type := mkDelivery { chunk : list Z; failure : option error }.

(** A [bufio.Reader] over the pipe, given by what it will deliver; once the
    deliveries are used up every read reports [io.EOF]. *)
Definition Reader : Type := list delivery.

(** [reader.Read(p)] with [len(p) = k]: at most [k] bytes of the next
    delivery, with its error once its last byte is out. *)
Definition Read (reader : Reader) (k : nat) : list Z * option error * Reader :=
  match reader with
  | [] => ([], Some EOF, [])
  | d :: rest =>
      if (length (chunk d) <=? k)%nat then (chunk d, failure d, rest)
      else (take k (chunk d), None, mkDelivery (drop k (chunk d)) (failure d) :: rest)
  end.

(** All the bytes a stream holds, and a measure that every read of at least
    one byte, and every read of a whole delivery, decreases. *)
Definition content (reader : Reader) : list Z := concat (map chunk reader).

Definition weight (reader : Reader) : nat :=
  (length reader + length (content reader))%nat.

(** A stream that delivers the given chunks one by one and never fails before
    its end. *)
Definition stream_of (chunks : list (list Z)) : Reader :=
  map (fun c => mkDelivery c None) chunks.

(* ================================================================= *)
(** ** Frame deserializer *)

(** The loop [for n < len(data) { read, err := reader.Read(data[n:]) ... }].
    It yields the error that ended it, if any, with the buffer and the stream
    as they then are. *)
Fixpoint read_full (fuel : nat) (reader : Reader) (data : list Z) (n : Z)
    : run (option error * list Z * Reader) :=
  if len data <=? n then Ret (None, data, reader)
  else
    match fuel with
    | O => OutOfFuel
    | S fuel' =>
        let '(bytes, err, reader') := Read reader (Z.to_nat (len data - n)) in
        let data' := list_inserts (Z.to_nat n) bytes data in
        match err with
        | Some e => Ret (Some e, data', reader')
        | None => read_full fuel' reader' data' (GoInt.add n (len bytes))
        end
    end.

(** The loop that copies the buffer into the image. *)
Definition fill_pixel (data : list Z) (y x : Z) (st : Img.RGBAImage * Z)
    : run (Img.RGBAImage * Z) :=
  let '(img, idx) := st in
  r <- index data idx ;;
  g <- index data (GoInt.add idx 1) ;;
  b <- index data (GoInt.add idx 2) ;;
  img' <- Img.Set_ img x y (Img.mkRGBA r g b 255) ;;
  Ret (img', GoInt.add idx 3).

Definition fill (data : list Z) (width height : Z) (img : Img.RGBAImage)
    : run (Img.RGBAImage * Z) :=
  for_lt 0 height (fun y st => for_lt 0 width (fill_pixel data y) st) (img, 0).

(** [readRawFrame] returns the image (the [image.RGBA] behind the
    [image.Image] it hands back) or the error, and leaves the reader where
    its reads have brought it.  The accumulation loop makes at most one read
    per delivery and one more, which is the fuel it gets. *)
Definition readRawFrame (reader : Reader) (width height : Z)
    : run (option Img.RGBAImage * option error * Reader) :=
  img <- Img.NewRGBA (Img.Rect 0 0 width height) ;;
  data <- make_bytes (GoInt.mul (GoInt.mul width height) 3) ;;
  res <- read_full (S (length reader)) reader data 0 ;;
  let '(err, data, reader') := res in
  match err with
  | Some e => Ret (None, Some e, reader')
  | None =>
      st <- fill data width height img ;;
      Ret (Some (fst st), None, reader')
  end.

(* ================================================================= *)
(** ** Playback loop *)

(** What the process does to the world, in order.  Timing ([time.Now],
    [time.Sleep]) leaves no event. *)
Inductive event : Type :=
| Stdout (s : string)            (* written to the terminal *)
| Stderr (s : string)
| Start (argv : list string)     (* [cmd.Start]: the decoder is launched *)
| Drain                          (* the goroutine that empties the decoder's stderr *)
| Kill                           (* [cmd.Process.Kill] *)
| Scanln.                        (* wait for the Enter key *)

(** How the process ends: [os.Exit] or the return of [main], a panic (exit
    status 2, after the deferred calls), an interrupt signal, or not within
    the fuel given. *)
Inductive status : Type :=
| Exit (code : Z)
| Crash (why : string)
| Interrupted
| Running.

(** What the process finds when it runs. *)
Record env : Type := mkEnv {
  Args : list string;                 (* [os.Args] *)
  GetSize : size_query;               (* the answer of [term.GetSize] *)
  StdoutPipe_err : option error;
  StderrPipe_err : option error;
  Start_err : option error;
  decoder : Reader                    (* what the decoder writes to its stdout *)
}.

(** The verb [%v] on an error. *)
Definition fmt_v (e : error) : string :=
  match e with EOF => "EOF" | Err msg => msg end.

Definition enter_screen : string := (ESC ++ "[?1049h" ++ ESC ++ "[?25l")%string.
Definition leave_screen : string := (ESC ++ "[?1049l" ++ ESC ++ "[?25h")%string.

(** The two deferred calls, in the order they run when [main] returns or
    panics: the last deferred first. *)
Definition deferred : list event := [Stdout leave_screen; Stdout LF; Kill].

Definition status_line (frameCount : Z) : string :=
  (ESC ++ "[0mFrame: " ++ fmt_d frameCount ++ " | FPS: " ++ fmt_d FPS
   ++ " | Press Ctrl+C to exit")%string.

Definition summary (frameCount : Z) : list event :=
  [Stdout (ESC ++ "[H" ++ ESC ++ "[2J" ++ ESC ++ "[32m")%string;
   Stdout ("Video complete! " ++ fmt_d frameCount ++ " frames played." ++ LF
           ++ "Press Enter to exit..." ++ ESC ++ "[0m")%string;
   Scanln].

(** How the loop is left. *)
Inductive loop_end : Type :=
| Break (frameCount : Z)
| OsExit (code : Z)
| Panicked (why : string)
| NoFuel.

(** The one loop of [main]; [fuel] bounds its iterations. *)
Fixpoint playback (fuel : nat) (reader : Reader) (WIDTH HEIGHT frameCount : Z)
    : list event * loop_end :=
  match fuel with
  | O => ([], NoFuel)
  | S fuel' =>
      match readRawFrame reader WIDTH HEIGHT with
      | OutOfFuel => ([], NoFuel)
      | Panic why => ([], Panicked why)
      | Ret (_, Some err, _) =>
          if frameCount =? 0
          then ([Stdout leave_screen;
                 Stderr ("Error: Could not read any frames. Check if video file is valid." ++ LF)%string],
                OsExit 1)
          else ([], Break frameCount)
      | Ret (None, None, _) => ([], Panicked "nil pointer dereference")
      | Ret (Some img, None, reader') =>
          match frameToASCII (Img.as_Image img) with
          | OutOfFuel => ([], NoFuel)
          | Panic why => ([], Panicked why)
          | Ret asciiFrame =>
              let shown := [Stdout (ESC ++ "[H" ++ asciiFrame)%string;
                            Stdout (status_line frameCount)] in
              let '(later, e) :=
                playback fuel' reader' WIDTH HEIGHT (GoInt.add frameCount 1) in
              ((shown ++ later)%list, e)
          end
      end
  end.

Definition decoder_argv (videoPath : string) (WIDTH HEIGHT : Z) : list string :=
  ["ffmpeg"; "-i"; videoPath;
   "-vf"; ("fps=" ++ fmt_d FPS ++ ",scale=" ++ fmt_d WIDTH ++ ":" ++ fmt_d HEIGHT)%string;
   "-f"; "rawvideo"; "-pix_fmt"; "rgb24"; "-"]%string.

Definition main (fuel : nat) (e : env) : list event * status :=
  if len (Args e) <? 2
  then ([Stdout ("Usage: go run main.go <video_file>" ++ LF)%string], Exit 1)
  else
    let videoPath := nth 1 (Args e) ""%string in
    let '(WIDTH, HEIGHT) := getTerminalSize (GetSize e) in
    match StdoutPipe_err e, StderrPipe_err e, Start_err e with
    | Some err, _, _ =>
        ([Stderr ("Error creating pipe: " ++ fmt_v err ++ LF)%string], Exit 1)
    | None, Some err, _ =>
        ([Stderr ("Error creating stderr pipe: " ++ fmt_v err ++ LF)%string], Exit 1)
    | None, None, Some err =>
        ([Stderr ("Error starting ffmpeg: " ++ fmt_v err ++ LF)%string;
          Stderr ("Make sure ffmpeg is installed and the video file exists" ++ LF)%string],
         Exit 1)
    | None, None, None =>
        let before := [Start (decoder_argv videoPath WIDTH HEIGHT); Drain;
                       Stdout enter_screen] in
        match playback fuel (decoder e) WIDTH HEIGHT 0 with
        | (shown, Break frameCount) =>
            ((before ++ shown ++ summary frameCount ++ deferred)%list, Exit 0)
        | (shown, OsExit code) => ((before ++ shown)%list, Exit code)
        | (shown, Panicked why) => ((before ++ shown ++ deferred)%list, Crash why)
        | (shown, NoFuel) => ((before ++ shown)%list, Running)
        end
    end.

(** The program installs no signal handler, so an interrupt (Ctrl+C) ends the
    process where it stands and no deferred call runs: of a run, only the
    events before the signal happen. *)
Definition interrupt_after (k : nat) (r : list event * status) : list event * status :=
  if (k <? length (fst r))%nat then (take k (fst r), Interrupted) else r.

Definition restores (ev : event) : bool :=
  match ev with
  | Stdout s => String.eqb s leave_screen
  | _ => false
  end.

Definition kills (ev : event) : bool :=
  match ev with Kill => true | _ => false end.

(* ================================================================= *)
(** ** Notions used to state the properties *)

(** One white pixel, held as an [image.RGBA] and as an image of another kind
    that panics when asked for a point off its grid. *)
Definition white_rgba : Img.Image :=
  Img.as_Image (Img.mkRGBAImage [255; 255; 255; 255] 4 (Img.Rect 0 0 1 1)).

Definition white_other : Img.Image :=
  Img.mkImage (Img.Rect 0 0 1 1)
    (fun x y => if (x =? 0) && (y =? 0)
                then Ret (Img.RGBA_Color (Img.mkRGBA 255 255 255 255))
                else Panic "point off the grid").

Definition no_failure (d : delivery) : Prop := failure d = None.

(** The pixel at column [x] of row [y] in a buffer laid out row by row from
    the top left corner, three bytes a pixel. *)
Definition pixel_at (bytes : list Z) (width x y : Z) : Img.RGBA :=
  let i := Z.to_nat (3 * (y * width + x)) in
  Img.mkRGBA (default 0 (bytes !! i)) (default 0 (bytes !! (i + 1)%nat))
             (default 0 (bytes !! (i + 2)%nat)) 255.

Definition grid_bounds (width height : Z) : Img.Rectangle :=
  Img.mkRectangle (Img.mkPoint 0 0) (Img.mkPoint width height).

(** The image [image.NewRGBA] allocates: every channel of every pixel zero. *)
Definition blank_image (width height : Z) : Img.RGBAImage :=
  Img.mkRGBAImage (replicate (Z.to_nat (4 * width * height)) 0) (4 * width)
                  (grid_bounds width height).

(** After [q] pixels: the index stands at [3q], the image keeps its shape,
    and the first [q] pixels of the buffer are in place, opaque. *)
Definition filled (width height : Z) (data : list Z) (q : Z)
    (st : Img.RGBAImage * Z) : Prop :=
  snd st = 3 * q /\
  Img.Stride (fst st) = 4 * width /\
  Img.Rect_ (fst st) = grid_bounds width height /\
  len (Img.Pix (fst st)) = 4 * width * height /\
  forall j, (j < Z.to_nat q)%nat ->
    Img.Pix (fst st) !! (4 * j)%nat = data !! (3 * j)%nat /\
    Img.Pix (fst st) !! (4 * j + 1)%nat = data !! (3 * j + 1)%nat /\
    Img.Pix (fst st) !! (4 * j + 2)%nat = data !! (3 * j + 2)%nat /\
    Img.Pix (fst st) !! (4 * j + 3)%nat = Some 255.

(** The number of bytes of a frame, as a count. *)
Definition frame_bytes (width height : Z) : nat := Z.to_nat (width * height * 3).




(** What the loop writes for the frames it renders, the first of them
    numbered [frameCount]. *)
Fixpoint shown (texts : list string) (frameCount : Z) : list event :=
  match texts with
  | [] => []
  | asciiFrame :: texts' =>
      Stdout (ESC ++ "[H" ++ asciiFrame)%string :: Stdout (status_line frameCount)
      :: shown texts' (frameCount + 1)
  end.


(** A terminal of 2x3 cells, hence frames of 2x1 pixels, and a decoder that
    writes two frames and three stray bytes in two deliveries. *)
Definition two_frames : env :=
  mkEnv ["monoscope"; "clip.mp4"]%string (2, 3, None) None None None
        (stream_of [[255; 255; 255; 0; 0]; [0; 10; 20; 30; 40; 50; 60; 1; 2]]).

(** A decoder that writes nothing, as for a file that is no video. *)
Definition no_frames : env :=
  mkEnv ["monoscope"; "broken.mp4"]%string (80, 24, None) None None None [].

(** The factor [float64(len(ASCII_CHARS)-1)]. *)
Definition nine : float := float64_of_int (len_string ASCII_CHARS - 1).

(** A float that is zero or positive and at most nine, seen through its
    mantissa and exponent. *)
Definition le_nine (sf : spec_float) : Prop :=
  (exists s, sf = S754_zero s) \/
  (exists m e, sf = S754_finite false m e /\ e <= -49 /\ Z.pos m <= 9 * 2 ^ (- e)).

Definition channel : list Z := map Z.of_nat (seq 0 256).

Definition in_unit (L : float) : bool := (0 <=? L)%float && (L <=? 1)%float.

(** Two luminances in [0, 1], the second at least the first, also after the
    multiplication by nine. *)
Definition step_ok (n9 a c : float) : bool :=
  in_unit a && in_unit c && (a <=? c)%float && (a * n9 <=? c * n9)%float.

(** The products of one weight with the 256 values of a channel. *)
Definition weighted (w : float) : list float :=
  map (fun c => (w * float64_of_int c)%float) channel.

(** The weights of the three channels. *)
#[warnings="-inexact-float"]
Definition weight_red : float := 0.299.
#[warnings="-inexact-float"]
Definition weight_green : float := 0.587.
#[warnings="-inexact-float"]
Definition weight_blue : float := 0.114.

(** The luminance from the three weighted channels. *)
#[warnings="-inexact-float"]
Definition mix (tr tg tb : float) : float := ((tr + tg + tb) / 255.0)%float.

(** [lum] climbs along [row], [prev] being its value at the entry before
    the row and [prev9] that value times nine. *)
Fixpoint climbs (n9 : float) (lum : float -> float) (prev prev9 : float)
    (row : list float) : bool :=
  match row with
  | [] => true
  | t :: row' =>
      let cur := lum t in
      let cur9 := (cur * n9)%float in
      in_unit cur && (prev <=? cur)%float && (prev9 <=? cur9)%float
      && climbs n9 lum cur cur9 row'
  end.

Definition climbs_from (n9 : float) (lum : float -> float) (row : list float) : bool :=
  match row with
  | [] => true
  | t :: row' =>
      let first := lum t in
      in_unit first && climbs n9 lum first (first * n9)%float row'
  end.

(** [mk u v] climbs along [T], for all [u] of [U] and [v] of [V]. *)
Definition ascends (mk : float -> float -> float -> float) (U V T : list float) : bool :=
  let n9 := nine in
  forallb (fun u => forallb (fun v => climbs_from n9 (mk u v) T) V) U.

(* ================================================================= *)
(** * Properties *)

(** ** Go integers *)

Lemma wrap_int_id z : in_int z -> wrap_int z = z.
Proof.
  unfold in_int, int_min, int_max, wrap_int. intros H.
  rewrite Z.mod_small; lia.
Qed.

Lemma wrap_int_range z : in_int (wrap_int z).
Proof.
  unfold in_int, int_min, int_max, wrap_int.
  pose proof (Z.mod_pos_bound (z + 2 ^ 63) (2 ^ 64)). lia.
Qed.

Lemma add_exact a b : in_int (a + b) -> GoInt.add a b = a + b.
Proof. apply wrap_int_id. Qed.

Lemma sub_exact a b : in_int (a - b) -> GoInt.sub a b = a - b.
Proof. apply wrap_int_id. Qed.

Lemma mul_exact a b : in_int (a * b) -> GoInt.mul a b = a * b.
Proof. apply wrap_int_id. Qed.

(** ** Geometry resolver *)

(** C8.  When the size query fails the resolver answers the fixed 160x50 and
    does not pass the failure on; when it succeeds it keeps the width and
    takes two rows off the height (the subtraction is exact for every height
    a terminal reports; it wraps only within two of the smallest [int]). *)
Theorem getTerminalSize_fallback_and_margin :
  (forall width height err,
      getTerminalSize (width, height, Some err) = (160, 50)) /\
  (forall width height,
      int_min + 2 <= height <= int_max ->
      getTerminalSize (width, height, None) = (width, height - 2)).
Proof.
  split; [reflexivity|].
  intros width height H. unfold getTerminalSize.
  rewrite sub_exact; [reflexivity|].
  unfold in_int, int_min, int_max in *. lia.
Qed.

Lemma getTerminalSize_fallback_and_margin_witness :
  getTerminalSize (80, 24, None) = (80, 22).
Proof.
  apply (proj2 getTerminalSize_fallback_and_margin 80 24).
  unfold int_min, int_max. lia.
Defined.

(** C10.  The resolver has no lower bound: a successful query that reports a
    height of two rows or less yields the height minus two, which is zero or
    negative; the fallback 160x50 is positive and is not reduced by the
    margin. *)
Theorem getTerminalSize_no_lower_bound :
  (forall width height,
      int_min + 2 <= height <= 2 ->
      snd (getTerminalSize (width, height, None)) = height - 2 /\
      snd (getTerminalSize (width, height, None)) <= 0) /\
  (forall width height err,
      getTerminalSize (width, height, Some err) = (160, 50) /\
      0 < fst (getTerminalSize (width, height, Some err)) /\
      0 < snd (getTerminalSize (width, height, Some err))).
Proof.
  split.
  - intros width height H. unfold getTerminalSize. cbn [snd].
    unfold int_min in H.
    rewrite sub_exact. 2:{ unfold in_int, int_min, int_max. lia. }
    lia.
  - intros. cbn. repeat split; lia.
Qed.

Lemma getTerminalSize_no_lower_bound_witness :
  snd (getTerminalSize (80, 2, None)) = 2 - 2 /\
  snd (getTerminalSize (80, 2, None)) <= 0.
Proof.
  apply (proj1 getTerminalSize_no_lower_bound 80 2).
  unfold int_min. lia.
Defined.

(** ** The two ends of the gradient *)


(** ** Loops *)

Lemma for_range_ext {S : Type} count lo (f g : Z -> S -> run S) s :
  (forall i s', lo <= i < lo + Z.of_nat count -> f i s' = g i s') ->
  for_range count lo f s = for_range count lo g s.
Proof.
  revert lo s. induction count as [|count IH]; intros lo s H; [reflexivity|].
  cbn [for_range]. rewrite (H lo s) by lia.
  destruct (g lo s) as [s'| |]; cbn [bind]; try reflexivity.
  apply IH. intros i s'' Hi. apply H. lia.
Qed.

Lemma for_lt_ext {S : Type} lo hi (f g : Z -> S -> run S) s :
  (forall i s', lo <= i < hi -> f i s' = g i s') ->
  for_lt lo hi f s = for_lt lo hi g s.
Proof.
  intros H. unfold for_lt. apply for_range_ext.
  intros i s' Hi. apply H. lia.
Qed.

(** ** Rendering is a function of the pixel grid *)

(** C7.  The text [frameToASCII] yields is determined by the pixel grid alone:
    two images with the same bounds and the same colour at every point of
    the bounds render to the same text, whatever else distinguishes them. *)
Theorem frameToASCII_deterministic (img1 img2 : Img.Image) :
  Img.Bounds img1 = Img.Bounds img2 ->
  (forall x y, Img.In (Img.mkPoint x y) (Img.Bounds img1) = true ->
               Img.At img1 x y = Img.At img2 x y) ->
  frameToASCII img1 = frameToASCII img2.
Proof.
  intros Hb Hat. unfold frameToASCII. rewrite <- Hb.
  apply for_lt_ext. intros y builder Hy.
  f_equal. apply for_lt_ext. intros x builder' Hx.
  rewrite Hat; [reflexivity|].
  unfold Img.In. cbn [Img.X Img.Y].
  repeat (apply andb_true_intro; split); lia.
Qed.

Lemma frameToASCII_deterministic_witness :
  frameToASCII white_rgba = frameToASCII white_other.
Proof.
  apply (frameToASCII_deterministic white_rgba white_other).
  - reflexivity.
  - intros x y H. unfold Img.In in H. cbn in H.
    assert (x = 0) as -> by lia. assert (y = 0) as -> by lia.
    reflexivity.
Defined.

(** ** The byte stream *)

Lemma content_cons d rest : content (d :: rest) = (chunk d ++ content rest)%list.
Proof. reflexivity. Qed.

Lemma content_app r1 r2 : content (r1 ++ r2)%list = (content r1 ++ content r2)%list.
Proof. unfold content. rewrite map_app. apply concat_app. Qed.

Lemma content_stream_of chunks : content (stream_of chunks) = concat chunks.
Proof.
  unfold content, stream_of. rewrite map_map. cbn [chunk].
  rewrite map_id. reflexivity.
Qed.

Lemma stream_of_no_failure chunks : Forall no_failure (stream_of chunks).
Proof. unfold stream_of. apply Forall_map. apply Forall_true. reflexivity. Qed.

Lemma weight_cons d rest :
  weight (d :: rest) = (1 + length (chunk d) + weight rest)%nat.
Proof. unfold weight. rewrite content_cons, length_app. cbn [length]. lia. Qed.

(** Overwriting a buffer from the end of what is already filled. *)
Lemma list_inserts_fill (acc bytes pad : list Z) :
  (length bytes <= length pad)%nat ->
  list_inserts (length acc) bytes (acc ++ pad)%list
  = (acc ++ bytes ++ drop (length bytes) pad)%list.
Proof.
  intros H.
  replace (length acc) with (length acc + 0)%nat by lia.
  rewrite list_inserts_app_r. f_equal.
  rewrite <- (take_drop (length bytes) pad) at 1.
  apply list_inserts_0_r. rewrite length_take. lia.
Qed.

(** ** The accumulation loop *)

Lemma read_full_done fuel reader data n :
  len data <= n -> read_full fuel reader data n = Ret (None, data, reader).
Proof.
  intros H. destruct fuel; cbn [read_full];
    destruct (Z.leb_spec (len data) n); try lia; reflexivity.
Qed.

Lemma read_full_unfold fuel reader data n :
  n < len data ->
  read_full (S fuel) reader data n =
    let '(bytes, err, reader') := Read reader (Z.to_nat (len data - n)) in
    let data' := list_inserts (Z.to_nat n) bytes data in
    match err with
    | Some e => Ret (Some e, data', reader')
    | None => read_full fuel reader' data' (GoInt.add n (len bytes))
    end.
Proof.
  intros H. cbn [read_full].
  destruct (Z.leb_spec (len data) n); [lia|reflexivity].
Qed.

Lemma len_app {A} (l1 l2 : list A) : len (l1 ++ l2)%list = len l1 + len l2.
Proof. unfold len. rewrite length_app. lia. Qed.

Lemma len_nonneg {A} (l : list A) : 0 <= len l.
Proof. unfold len. lia. Qed.

Lemma to_nat_len {A} (l : list A) : Z.to_nat (len l) = length l.
Proof. unfold len. apply Nat2Z.id. Qed.

(** What the accumulation loop does on any stream: it always ends, and it
    ends without an error exactly when the stream had the missing bytes
    before any failure; then the buffer holds them and the stream has lost
    exactly them. *)
Lemma read_full_spec reader :
  forall fuel acc pad,
    in_int (len (acc ++ pad)%list) ->
    (length reader < fuel)%nat ->
    exists err data' reader',
      read_full fuel reader (acc ++ pad)%list (len acc) = Ret (err, data', reader') /\
      (weight reader' <= weight reader)%nat /\
      match err with
      | None =>
          (length pad <= length (content reader))%nat /\
          data' = (acc ++ take (length pad) (content reader))%list /\
          content reader' = drop (length pad) (content reader) /\
          (pad <> [] -> (weight reader' < weight reader)%nat) /\
          (Forall no_failure reader -> Forall no_failure reader')
      | Some e =>
          ~ (Forall no_failure reader /\
             (length pad <= length (content reader))%nat)
      end.
Proof.
  induction reader as [|d rest IH]; intros fuel acc pad Hint Hfuel.
  - (* the stream is used up *)
    destruct pad as [|b pad].
    + rewrite read_full_done by (rewrite len_app; unfold len; cbn; lia).
      exists None, (acc ++ [])%list, [].
      split; [reflexivity|]. split; [lia|].
      split; [cbn; lia|]. split; [reflexivity|].
      split; [reflexivity|]. split; [congruence|auto].
    + destruct fuel as [|fuel]; [lia|].
      rewrite read_full_unfold by (rewrite len_app; unfold len; cbn; lia).
      cbn [Read list_inserts].
      exists (Some EOF), (acc ++ b :: pad)%list, [].
      split; [reflexivity|]. split; [lia|].
      intros [_ H]. cbn in H. lia.
  - destruct pad as [|b pad].
    + rewrite read_full_done by (rewrite len_app; unfold len; cbn; lia).
      exists None, (acc ++ [])%list, (d :: rest).
      split; [reflexivity|]. split; [lia|].
      split; [cbn; lia|]. split; [reflexivity|].
      split; [reflexivity|]. split; [congruence|auto].
    + set (pad' := b :: pad) in *.
      assert (Hpad : (0 < length pad')%nat) by (cbn; lia).
      destruct fuel as [|fuel]; [lia|].
      assert (Hlen : len (acc ++ pad')%list - len acc = len pad')
        by (rewrite len_app; lia).
      rewrite read_full_unfold by (pose proof (len_nonneg acc); unfold len in *; lia).
      rewrite Hlen, !to_nat_len.
      cbn [Read].
      destruct (Nat.leb_spec (length (chunk d)) (length pad')) as [Hfit|Hbig].
      * (* the whole delivery fits *)
        rewrite list_inserts_fill by lia.
        destruct (failure d) as [e|] eqn:Hfail.
        -- exists (Some e), (acc ++ chunk d ++ drop (length (chunk d)) pad')%list, rest.
           repeat split.
           ++ rewrite weight_cons. lia.
           ++ intros [Hno _]. inversion Hno as [|? ? Hd _]; subst.
              unfold no_failure in Hd. congruence.
        -- assert (Hadd : GoInt.add (len acc) (len (chunk d)) = len (acc ++ chunk d)%list).
           { rewrite len_app. apply add_exact.
             unfold in_int, int_min, int_max in *. rewrite len_app in Hint.
             unfold len in *. lia. }
           rewrite Hadd.
           replace (acc ++ chunk d ++ drop (length (chunk d)) pad')%list
             with ((acc ++ chunk d) ++ drop (length (chunk d)) pad')%list
             by (rewrite <- app_assoc; reflexivity).
           destruct (IH fuel (acc ++ chunk d)%list (drop (length (chunk d)) pad'))
             as (err & data' & reader' & Hrun & Hw & Hres).
           { unfold in_int, int_min, int_max in *. rewrite !len_app in *.
             unfold len in *. rewrite length_drop. lia. }
           { cbn [length] in Hfuel. lia. }
           exists err, data', reader'. split; [exact Hrun|].
           split; [rewrite weight_cons; lia|].
           destruct err as [e|].
           ++ intros [Hno Hlenc]. apply Hres. split.
              ** inversion Hno; assumption.
              ** rewrite content_cons, length_app in Hlenc.
                 rewrite length_drop. lia.
           ++ destruct Hres as (Hc & Hdata & Hcont & Hlt & Hno).
              rewrite length_drop in *.
              repeat split.
              ** rewrite content_cons, length_app. lia.
              ** rewrite Hdata, content_cons, <- app_assoc. f_equal.
                 rewrite take_app. rewrite (take_ge (chunk d)) by lia. reflexivity.
              ** rewrite Hcont, content_cons. rewrite drop_app.
                 rewrite (drop_ge (chunk d)) by lia. reflexivity.
              ** intros _. rewrite weight_cons. lia.
              ** intros H. inversion H; subst. auto.
      * (* only the head of the delivery fits: the buffer is full *)
        assert (Htk : length (take (length pad') (chunk d)) = length pad')
          by (rewrite length_take; lia).
        rewrite list_inserts_fill by lia.
        rewrite Htk, drop_all, app_nil_r.
        rewrite read_full_done.
        2:{ unfold GoInt.add. pose proof (wrap_int_range (len acc + len (take (length pad') (chunk d)))).
            rewrite wrap_int_id.
            - rewrite !len_app. unfold len. rewrite Htk. lia.
            - unfold in_int, int_min, int_max in *. rewrite len_app in Hint.
              unfold len in *. rewrite Htk. lia. }
        eexists None, _, _. split; [reflexivity|].
        split.
        { rewrite !weight_cons. cbn [chunk]. rewrite length_drop. lia. }
        repeat split.
        -- rewrite content_cons, length_app. lia.
        -- f_equal. rewrite content_cons. rewrite take_app.
           replace (length pad' - length (chunk d))%nat with 0%nat by lia.
           rewrite take_0, app_nil_r. reflexivity.
        -- rewrite !content_cons. cbn [chunk]. rewrite drop_app.
           replace (length pad' - length (chunk d))%nat with 0%nat by lia.
           reflexivity.
        -- intros _. rewrite !weight_cons. cbn [chunk]. rewrite length_drop. lia.
        -- intros H. inversion H; subst. constructor; auto.
Qed.




(** ** Loops with an invariant *)

Lemma for_range_inv {St : Type} (P : Z -> St -> Prop) count lo body (s : St) :
  P lo s ->
  (forall i s0, lo <= i < lo + Z.of_nat count -> P i s0 ->
                exists s1, body i s0 = Ret s1 /\ P (i + 1) s1) ->
  exists s', for_range count lo body s = Ret s' /\ P (lo + Z.of_nat count) s'.
Proof.
  revert lo s. induction count as [|count IH]; intros lo s H0 Hstep.
  - exists s. split; [reflexivity|]. replace (lo + Z.of_nat 0) with lo by lia. exact H0.
  - destruct (Hstep lo s) as (s1 & Hb & H1); [lia|exact H0|].
    destruct (IH (lo + 1) s1 H1) as (s' & Hr & H').
    { intros i s0 Hi. apply Hstep. lia. }
    exists s'. split.
    + cbn [for_range]. rewrite Hb. exact Hr.
    + replace (lo + Z.of_nat (S count)) with (lo + 1 + Z.of_nat count) by lia.
      exact H'.
Qed.

Lemma for_lt_inv {St : Type} (P : Z -> St -> Prop) lo hi body (s : St) :
  lo <= hi ->
  P lo s ->
  (forall i s0, lo <= i < hi -> P i s0 ->
                exists s1, body i s0 = Ret s1 /\ P (i + 1) s1) ->
  exists s', for_lt lo hi body s = Ret s' /\ P hi s'.
Proof.
  intros Hle H0 Hstep. unfold for_lt.
  destruct (for_range_inv P (Z.to_nat (hi - lo)) lo body s H0) as (s' & Hr & H').
  - intros i s0 Hi. apply Hstep. lia.
  - exists s'. split; [exact Hr|].
    replace hi with (lo + Z.of_nat (Z.to_nat (hi - lo))) at 1 by lia. exact H'.
Qed.

(** ** From the buffer to the pixel grid *)

Section Grid.

Variables width height : Z.
Hypothesis width_pos : 0 < width.
Hypothesis height_pos : 0 < height.
Hypothesis fits : 4 * width * height <= int_max.

Let bounds : Img.Rectangle := grid_bounds width height.
Let blank : Img.RGBAImage := blank_image width height.

Lemma area_bounds : 0 < width * height /\ 4 * width <= int_max.
Proof using width_pos height_pos fits. unfold int_max in *. nia. Qed.

Lemma Rect_ok : Img.Rect 0 0 width height = bounds.
Proof using width_pos height_pos.
  unfold Img.Rect.
  destruct (Z.ltb_spec width 0); [lia|].
  destruct (Z.ltb_spec height 0); [lia|]. reflexivity.
Qed.

Lemma NewRGBA_ok : Img.NewRGBA (Img.Rect 0 0 width height) = Ret blank.
Proof using width_pos height_pos fits.
  pose proof area_bounds as [Ha Hw]. unfold int_max in *.
  rewrite Rect_ok. unfold Img.NewRGBA, Img.Dx, Img.Dy, blank, blank_image, bounds, grid_bounds. cbn [Img.Max Img.Min Img.X Img.Y].
  rewrite !sub_exact by (unfold in_int, int_min, int_max; lia).
  rewrite !Z.sub_0_r.
  assert (Hm : Img.mul3NonNeg 4 width height = 4 * width * height).
  { unfold Img.mul3NonNeg.
    destruct (Z.ltb_spec 4 0); [lia|].
    destruct (Z.ltb_spec width 0); [lia|].
    destruct (Z.ltb_spec height 0); [lia|]. cbn [orb].
    destruct (Z.leb_spec (2 ^ 64) (4 * width)); [lia|].
    destruct (Z.leb_spec (2 ^ 64) (4 * width * height)); [lia|].
    destruct (Z.leb_spec (2 ^ 63) (4 * width * height)); [lia|]. reflexivity. }
  rewrite Hm.
  destruct (Z.ltb_spec (4 * width * height) 0); [lia|].
  rewrite mul_exact by (unfold in_int, int_min, int_max; lia).
  reflexivity.
Qed.

Lemma make_bytes_ok :
  make_bytes (GoInt.mul (GoInt.mul width height) 3)
  = Ret (replicate (Z.to_nat (width * height * 3)) 0).
Proof using width_pos height_pos fits.
  pose proof area_bounds as [Ha Hw]. unfold int_max in *.
  rewrite !mul_exact by (unfold in_int, int_min, int_max; try rewrite mul_exact;
                         unfold in_int, int_min, int_max; lia).
  unfold make_bytes. destruct (Z.ltb_spec (width * height * 3) 0); [lia|].
  reflexivity.
Qed.

Variable data : list Z.
Hypothesis data_len : len data = width * height * 3.

Lemma filled_blank : filled width height data 0 (blank, 0).
Proof using width_pos height_pos fits.
  pose proof area_bounds as [Ha Hw]. unfold int_max in *.
  unfold filled, blank, blank_image. cbn [fst snd Img.Stride Img.Rect_ Img.Pix].
  repeat split; try lia; try reflexivity.
  unfold len. rewrite length_replicate. lia.
Qed.

Lemma index_ok (i : Z) :
  0 <= i < len data -> exists b, data !! Z.to_nat i = Some b /\ index data i = Ret b.
Proof.
  intros Hi. unfold index. destruct (Z.ltb_spec i 0); [lia|].
  destruct (data !! Z.to_nat i) as [b|] eqn:Hb.
  - exists b. auto.
  - apply lookup_ge_None in Hb. unfold len in Hi. lia.
Qed.

Lemma fill_pixel_step x y st :
  0 <= x < width -> 0 <= y < height ->
  filled width height data (y * width + x) st ->
  exists st', fill_pixel data y x st = Ret st' /\ filled width height data (y * width + x + 1) st'.
Proof using width_pos height_pos fits data_len.
  intros Hx Hy (Hidx & Hstride & Hrect & Hpix & Hdone).
  pose proof area_bounds as [Ha Hw]. unfold int_max in *.
  destruct st as [img idx]. cbn [fst snd] in *. subst idx.
  set (q := y * width + x) in *.
  assert (Hq : 0 <= q < width * height) by (unfold q; nia).
  unfold fill_pixel.
  rewrite !add_exact by (unfold in_int, int_min, int_max; lia).
  destruct (index_ok (3 * q)) as (r & Hr & ->); [lia|].
  destruct (index_ok (3 * q + 1)) as (g & Hg & ->); [lia|].
  destruct (index_ok (3 * q + 2)) as (b & Hb & ->); [lia|].
  cbn [bind].
  unfold Img.Set_, Img.In, Img.in_Pix, Img.PixOffset.
  rewrite Hrect, Hstride, Hpix. unfold bounds, grid_bounds.
  cbn [Img.X Img.Y Img.Min Img.Max].
  rewrite !sub_exact by (unfold in_int, int_min, int_max; lia).
  rewrite !Z.sub_0_r.
  rewrite (mul_exact y) by (unfold in_int, int_min, int_max; nia).
  rewrite (mul_exact x) by (unfold in_int, int_min, int_max; nia).
  rewrite add_exact by (unfold in_int, int_min, int_max; nia).
  replace (y * (4 * width) + x * 4) with (4 * q) by (unfold q; lia).
  destruct (Z.leb_spec 0 x); [|lia]. destruct (Z.ltb_spec x width); [|lia].
  destruct (Z.leb_spec 0 y); [|lia]. destruct (Z.ltb_spec y height); [|lia].
  destruct (Z.leb_spec 0 (4 * q)); [|lia].
  destruct (Z.leb_spec (4 * q + 4) (4 * width * height)); [|lia].
  cbn [andb negb bind].
  eexists. split; [reflexivity|].
  set (n := Z.to_nat (4 * q)).
  assert (Hn : n = (4 * Z.to_nat q)%nat) by (unfold n; lia).
  assert (Hlen : (n + 3 < length (Img.Pix img))%nat) by (unfold len in Hpix; lia).
  unfold filled. cbn [fst snd Img.Stride Img.Rect_ Img.Pix Img.R Img.G Img.B Img.A].
  split; [lia|]. split; [reflexivity|]. split; [reflexivity|].
  split; [unfold len in *; rewrite !length_insert; assumption|].
  intros j Hj.
  destruct (decide (j = Z.to_nat q)) as [->|Hne].
  - rewrite <- Hn.
    replace (3 * Z.to_nat q)%nat with (Z.to_nat (3 * q)) by lia.
    replace (Z.to_nat (3 * q) + 1)%nat with (Z.to_nat (3 * q + 1)) by lia.
    replace (Z.to_nat (3 * q) + 2)%nat with (Z.to_nat (3 * q + 2)) by lia.
    rewrite Hr, Hg, Hb.
    repeat split.
    + rewrite !list_lookup_insert_ne by lia.
      apply list_lookup_insert_eq. lia.
    + rewrite !list_lookup_insert_ne by lia.
      apply list_lookup_insert_eq. rewrite length_insert. lia.
    + rewrite list_lookup_insert_ne by lia.
      apply list_lookup_insert_eq. rewrite !length_insert. lia.
    + apply list_lookup_insert_eq. rewrite !length_insert. lia.
  - assert (j < Z.to_nat q)%nat by lia.
    rewrite !list_lookup_insert_ne by lia.
    apply Hdone. assumption.
Qed.

Lemma fill_ok :
  exists st, fill data width height blank = Ret st /\ filled width height data (width * height) st.
Proof using width_pos height_pos fits data_len.
  unfold fill.
  destruct (for_lt_inv (fun y st => filled width height data (y * width) st) 0 height
              (fun y st => for_lt 0 width (fill_pixel data y) st) (blank, 0))
    as (st & Hrun & Hst).
  - lia.
  - rewrite Z.mul_0_l. apply filled_blank.
  - intros y st Hy Hin.
    destruct (for_lt_inv (fun x st => filled width height data (y * width + x) st) 0 width
                (fill_pixel data y) st) as (st' & Hrow & Hst').
    + lia.
    + rewrite Z.add_0_r. exact Hin.
    + intros x st0 Hx H0. rewrite Z.add_assoc.
      apply fill_pixel_step; assumption.
    + exists st'. split; [exact Hrow|].
      replace ((y + 1) * width) with (y * width + width) by lia. exact Hst'.
  - exists st. split; [exact Hrun|].
    rewrite Z.mul_comm. exact Hst.
Qed.

(** A filled image shows, at every point of the grid, the pixel the buffer
    holds for it. *)
Lemma filled_RGBAAt st x y :
  filled width height data (width * height) st ->
  0 <= x < width -> 0 <= y < height ->
  Img.RGBAAt (fst st) x y = Ret (pixel_at data width x y).
Proof using width_pos height_pos fits data_len.
  intros (Hidx & Hstride & Hrect & Hpix & Hdone) Hx Hy.
  pose proof area_bounds as [Ha Hw]. unfold int_max in *.
  set (q := y * width + x).
  assert (Hq : 0 <= q < width * height) by (unfold q; nia).
  unfold Img.RGBAAt, Img.In, Img.in_Pix, Img.PixOffset.
  rewrite Hrect, Hstride, Hpix. unfold bounds, grid_bounds.
  cbn [Img.X Img.Y Img.Min Img.Max].
  rewrite !sub_exact by (unfold in_int, int_min, int_max; lia).
  rewrite !Z.sub_0_r.
  rewrite (mul_exact y) by (unfold in_int, int_min, int_max; nia).
  rewrite (mul_exact x) by (unfold in_int, int_min, int_max; nia).
  rewrite add_exact by (unfold in_int, int_min, int_max; nia).
  replace (y * (4 * width) + x * 4) with (4 * q) by (unfold q; lia).
  destruct (Z.leb_spec 0 x); [|lia]. destruct (Z.ltb_spec x width); [|lia].
  destruct (Z.leb_spec 0 y); [|lia]. destruct (Z.ltb_spec y height); [|lia].
  destruct (Z.leb_spec 0 (4 * q)); [|lia].
  destruct (Z.leb_spec (4 * q + 4) (4 * width * height)); [|lia].
  cbn [andb negb].
  destruct (Hdone (Z.to_nat q)) as (Hr & Hg & Hb & Ha'); [lia|].
  replace (Z.to_nat (4 * q)) with (4 * Z.to_nat q)%nat by lia.
  rewrite Nat.add_0_r, Hr, Hg, Hb, Ha'.
  unfold pixel_at. fold q.
  replace (Z.to_nat (3 * q)) with (3 * Z.to_nat q)%nat by lia.
  reflexivity.
Qed.

End Grid.

(** ** Frame deserializer *)

(** What [readRawFrame] does on any stream, for a geometry whose image fits
    in memory: it ends with the error of the stream and no image, or with
    the image of the first [width*height*3] bytes of the stream, which it
    has taken off the stream, and no more. *)
Lemma readRawFrame_spec reader width height :
  0 < width -> 0 < height -> 4 * width * height <= int_max ->
  (exists e reader',
      readRawFrame reader width height = Ret (None, Some e, reader') /\
      (weight reader' <= weight reader)%nat /\
      ~ (Forall no_failure reader /\
         (frame_bytes width height <= length (content reader))%nat))
  \/
  (exists st reader',
      fill (take (frame_bytes width height) (content reader)) width height
           (blank_image width height) = Ret st /\
      filled width height (take (frame_bytes width height) (content reader))
             (width * height) st /\
      readRawFrame reader width height = Ret (Some (fst st), None, reader') /\
      (frame_bytes width height <= length (content reader))%nat /\
      content reader' = drop (frame_bytes width height) (content reader) /\
      (weight reader' < weight reader)%nat /\
      (Forall no_failure reader -> Forall no_failure reader')).
Proof.
  intros Hw Hh Hfit.
  pose proof (area_bounds width height Hw Hh Hfit) as [Ha Hw4]. unfold int_max in *.
  unfold readRawFrame.
  rewrite NewRGBA_ok, make_bytes_ok by assumption. cbn [bind].
  fold (frame_bytes width height).
  set (pad := replicate (frame_bytes width height) 0).
  assert (Hpad : length pad = frame_bytes width height)
    by (unfold pad; apply length_replicate).
  destruct (read_full_spec reader (S (length reader)) [] pad)
    as (err & data' & reader' & Hrun & Hwt & Hres).
  { cbn [app]. unfold in_int, int_min, int_max, len. rewrite Hpad.
    unfold frame_bytes. lia. }
  { lia. }
  cbn [app] in Hrun. change (len []) with 0 in Hrun. rewrite Hrun. cbn [bind].
  destruct err as [e|].
  - left. exists e, reader'. rewrite Hpad in Hres. auto.
  - right. destruct Hres as (Hc & Hdata & Hcont & Hlt & Hno).
    rewrite Hpad in *. cbn [app] in Hdata. subst data'.
    set (bytes := take (frame_bytes width height) (content reader)) in *.
    assert (Hlen : len bytes = width * height * 3).
    { unfold len, bytes. rewrite length_take. unfold frame_bytes in *. lia. }
    destruct (fill_ok width height Hw Hh Hfit bytes Hlen) as (st & Hfill & Hst).
    exists st, reader'. rewrite Hfill. cbn [bind].
    split; [reflexivity|]. split; [exact Hst|]. split; [reflexivity|].
    split; [exact Hc|]. split; [exact Hcont|]. split; [|exact Hno].
    apply Hlt. intros Hnil. apply (f_equal length) in Hnil.
    rewrite Hpad in Hnil. cbn in Hnil. unfold frame_bytes in Hnil. lia.
Qed.

Lemma concat_singletons (bytes : list Z) : concat (map (fun b => [b]) bytes) = bytes.
Proof. induction bytes as [|b bytes IH]; cbn; [|rewrite IH]; reflexivity. Qed.

Lemma pixel_at_take bytes width height x y :
  0 < width -> 0 <= x < width -> 0 <= y < height ->
  pixel_at (take (frame_bytes width height) bytes) width x y = pixel_at bytes width x y.
Proof.
  intros Hw Hx Hy. unfold pixel_at, frame_bytes.
  assert (0 <= y * width + x < width * height) by nia.
  rewrite !lookup_take_lt by lia. reflexivity.
Qed.

(** A stream without failure that holds a frame gives it. *)
Lemma readRawFrame_ok reader width height :
  0 < width -> 0 < height -> 4 * width * height <= int_max ->
  Forall no_failure reader ->
  (frame_bytes width height <= length (content reader))%nat ->
  exists st reader',
    fill (take (frame_bytes width height) (content reader)) width height
         (blank_image width height) = Ret st /\
    filled width height (take (frame_bytes width height) (content reader))
           (width * height) st /\
    readRawFrame reader width height = Ret (Some (fst st), None, reader') /\
    content reader' = drop (frame_bytes width height) (content reader) /\
    (weight reader' < weight reader)%nat /\
    Forall no_failure reader'.
Proof.
  intros Hw Hh Hfit Hno Hlen.
  destruct (readRawFrame_spec reader width height Hw Hh Hfit)
    as [(e & reader' & _ & _ & Habs)|(st & reader' & H1 & H2 & H3 & _ & H5 & H6 & H7)].
  - exfalso. apply Habs. auto.
  - exists st, reader'. auto 10.
Qed.

(** C1.  For a positive geometry (whose image fits in memory) and a stream
    that holds at least [width*height*3] bytes, [readRawFrame] returns a
    frame after taking exactly that many bytes off the stream, however the
    stream cuts its deliveries: the frame is the grid of the first
    [width*height*3] bytes, row by row from the top left, three bytes a
    pixel, and the same bytes delivered one byte a read or in a single read
    give the identical image. *)
Theorem readRawFrame_chunking (width height : Z) (chunks : list (list Z)) :
  0 < width -> 0 < height -> 4 * width * height <= int_max ->
  width * height * 3 <= len (concat chunks) ->
  exists img reader',
    readRawFrame (stream_of chunks) width height = Ret (Some img, None, reader') /\
    content reader' = drop (frame_bytes width height) (concat chunks) /\
    Img.Rect_ img = grid_bounds width height /\
    (forall x y, 0 <= x < width -> 0 <= y < height ->
                 Img.RGBAAt img x y = Ret (pixel_at (concat chunks) width x y)) /\
    (exists r1, readRawFrame (stream_of (map (fun b => [b]) (concat chunks)))
                             width height = Ret (Some img, None, r1)) /\
    (exists r2, readRawFrame (stream_of [concat chunks]) width height
                = Ret (Some img, None, r2)).
Proof.
  intros Hw Hh Hfit Hlen.
  assert (Hn : (frame_bytes width height <= length (concat chunks))%nat)
    by (unfold frame_bytes, len in *; lia).
  destruct (readRawFrame_ok (stream_of chunks) width height Hw Hh Hfit)
    as (st & reader' & Hfill & Hst & Hrun & Hcont & _ & _).
  { apply stream_of_no_failure. }
  { rewrite content_stream_of. exact Hn. }
  rewrite content_stream_of in *.
  exists (fst st), reader'.
  split; [exact Hrun|]. split; [exact Hcont|].
  split; [apply Hst|].
  split.
  { intros x y Hx Hy.
    assert (Htk : len (take (frame_bytes width height) (concat chunks))
                  = width * height * 3).
    { unfold len. rewrite length_take. unfold frame_bytes in *. nia. }
    rewrite (filled_RGBAAt width height Hw Hh Hfit _ Htk st x y Hst Hx Hy).
    rewrite pixel_at_take by assumption. reflexivity. }
  split.
  - destruct (readRawFrame_ok (stream_of (map (fun b => [b]) (concat chunks)))
                width height Hw Hh Hfit)
      as (st1 & r1 & Hfill1 & _ & Hrun1 & _).
    { apply stream_of_no_failure. }
    { rewrite content_stream_of, concat_singletons. exact Hn. }
    rewrite content_stream_of, concat_singletons in Hfill1.
    exists r1. rewrite Hrun1. congruence.
  - destruct (readRawFrame_ok (stream_of [concat chunks]) width height Hw Hh Hfit)
      as (st2 & r2 & Hfill2 & _ & Hrun2 & _).
    { apply stream_of_no_failure. }
    { rewrite content_stream_of. cbn [concat]. rewrite app_nil_r. exact Hn. }
    rewrite content_stream_of in Hfill2. cbn [concat] in Hfill2.
    rewrite app_nil_r in Hfill2.
    exists r2. rewrite Hrun2. congruence.
Qed.

Lemma readRawFrame_chunking_witness :
  exists img reader',
    readRawFrame (stream_of [[10; 20]; [30; 40; 50]; [60; 70]]) 2 1
      = Ret (Some img, None, reader') /\
    content reader' = drop (frame_bytes 2 1) (concat [[10; 20]; [30; 40; 50]; [60; 70]]) /\
    Img.Rect_ img = grid_bounds 2 1 /\
    (forall x y, 0 <= x < 2 -> 0 <= y < 1 ->
                 Img.RGBAAt img x y
                 = Ret (pixel_at (concat [[10; 20]; [30; 40; 50]; [60; 70]]) 2 x y)) /\
    (exists r1, readRawFrame
                  (stream_of (map (fun b => [b]) (concat [[10; 20]; [30; 40; 50]; [60; 70]])))
                  2 1 = Ret (Some img, None, r1)) /\
    (exists r2, readRawFrame (stream_of [concat [[10; 20]; [30; 40; 50]; [60; 70]]]) 2 1
                = Ret (Some img, None, r2)).
Proof.
  apply (readRawFrame_chunking 2 1 [[10; 20]; [30; 40; 50]; [60; 70]]).
  - lia.
  - lia.
  - unfold int_max. lia.
  - vm_compute. discriminate.
Defined.



(** ** Playback loop *)





(** ** Release of the terminal and of the decoder *)

(** C4 (as the code behaves: the claim does not hold).  Two ways out skip a
    release.  When the first read fails the program restores the terminal by
    hand and leaves through [os.Exit], which runs no deferred call: the
    decoder is never killed.  An interrupt while the second frame is awaited
    ends the process in the alternate screen with the cursor hidden: neither
    the restore nor the kill has run.  Only the return of [main] (and a
    panic) runs both. *)
Theorem release_skipped_on_exit_and_interrupt :
  (snd (main 1 no_frames) = Exit 1 /\
   existsb restores (fst (main 1 no_frames)) = true /\
   existsb kills (fst (main 1 no_frames)) = false) /\
  (snd (interrupt_after 5 (main 3 two_frames)) = Interrupted /\
   In (Stdout enter_screen) (fst (interrupt_after 5 (main 3 two_frames))) /\
   existsb restores (fst (interrupt_after 5 (main 3 two_frames))) = false /\
   existsb kills (fst (interrupt_after 5 (main 3 two_frames))) = false) /\
  (snd (main 3 two_frames) = Exit 0 /\
   existsb restores (fst (main 3 two_frames)) = true /\
   existsb kills (fst (main 3 two_frames)) = true).
Proof.
  split; [|split].
  - repeat split; vm_compute; reflexivity.
  - split; [vm_compute; reflexivity|].
    split; [|split; vm_compute; reflexivity].
    vm_compute. right. right. left. reflexivity.
  - repeat split; vm_compute; reflexivity.
Qed.

(** ** float64: order and validity *)

Lemma digits2_pos_bounds m :
  2 ^ (Z.pos (digits2_pos m) - 1) <= Z.pos m < 2 ^ Z.pos (digits2_pos m).
Proof.
  induction m as [p IH|p IH|]; cbn [digits2_pos].
  - rewrite Pos2Z.inj_succ. replace (Z.succ (Z.pos (digits2_pos p)) - 1) with (Z.succ (Z.pos (digits2_pos p) - 1)) by lia.
    rewrite !Z.pow_succ_r by lia. lia.
  - rewrite Pos2Z.inj_succ. replace (Z.succ (Z.pos (digits2_pos p)) - 1) with (Z.succ (Z.pos (digits2_pos p) - 1)) by lia.
    rewrite !Z.pow_succ_r by lia. lia.
  - cbn. lia.
Qed.

Lemma bounded_digits m e :
  bounded prec emax m e = true ->
  Z.pos (digits2_pos m) <= 53 /\ -1074 <= e <= 971 /\
  (-1074 < e -> Z.pos (digits2_pos m) = 53).
Proof.
  unfold bounded, canonical_mantissa, fexp, SpecFloat.emin, prec, emax.
  intros H. apply andb_true_iff in H as [H1 H2].
  apply Z.eqb_eq in H1. apply Z.leb_le in H2. lia.
Qed.

Lemma SFleb_trans x y z :
  SFleb x y = true -> SFleb y z = true -> SFleb x z = true.
Proof.
  unfold SFleb, SFcompare.
  destruct x as [sx|sx| |sx mx ex], y as [sy|sy| |sy my ey], z as [sz|sz| |sz mz ez];
    try destruct sx; try destruct sy; try destruct sz; try discriminate; try reflexivity;
    cbn; intros H1 H2;
    repeat match goal with
    | H : context [Z.compare ?a ?b] |- _ => destruct (Z.compare_spec a b); try discriminate
    | H : context [Pos.compare_cont Eq ?a ?b] |- _ => change (Pos.compare_cont Eq a b) with (Pos.compare a b) in H; destruct (Pos.compare_spec a b); try discriminate
    end; subst;
    repeat match goal with
    | |- context [Z.compare ?a ?b] => destruct (Z.compare_spec a b); try lia
    | |- context [Pos.compare_cont Eq ?a ?b] => change (Pos.compare_cont Eq a b) with (Pos.compare a b); destruct (Pos.compare_spec a b); try lia
    end; try reflexivity; try discriminate; try lia.
Qed.

Lemma leb_trans (x y z : float) :
  (x <=? y)%float = true -> (y <=? z)%float = true -> (x <=? z)%float = true.
Proof. rewrite !FloatAxioms.leb_spec. apply SFleb_trans. Qed.

(** ** float64: shifting and rounding a mantissa *)

Lemma iter_pos_nat {A} (f : A -> A) p x :
  SpecFloat.iter_pos f p x = Nat.iter (Pos.to_nat p) f x.
Proof.
  revert x. induction p as [p IH|p IH|]; intros x; cbn [SpecFloat.iter_pos].
  - rewrite !IH, Pos2Nat.inj_xI.
    replace (S (2 * Pos.to_nat p)) with (Pos.to_nat p + (Pos.to_nat p + 1))%nat by lia.
    rewrite !Nat.iter_add. reflexivity.
  - rewrite !IH, Pos2Nat.inj_xO.
    replace (2 * Pos.to_nat p)%nat with (Pos.to_nat p + Pos.to_nat p)%nat by lia.
    rewrite Nat.iter_add. reflexivity.
  - reflexivity.
Qed.

Lemma shr_1_spec m r s :
  0 <= m ->
  shr_1 (Build_shr_record m r s) = Build_shr_record (m / 2) (Z.odd m) (r || s).
Proof.
  intros Hm. rewrite <- Z.div2_div.
  destruct m as [|p|p]; [reflexivity| |lia].
  destruct p; reflexivity.
Qed.

(** [k] shifts of a mantissa without lost bits so far. *)
Lemma shr_iter_spec k m :
  0 <= m ->
  let mrs := Nat.iter k shr_1 (Build_shr_record m false false) in
  shr_m mrs = m / 2 ^ Z.of_nat k /\
  (m mod 2 ^ Z.of_nat k = 0 -> shr_r mrs = false /\ shr_s mrs = false).
Proof.
  intros Hm. induction k as [|k IH].
  - cbn. rewrite Z.div_1_r. auto.
  - cbn zeta in *. rewrite Nat.iter_succ.
    destruct (Nat.iter k shr_1 _) as [mk rk sk]. cbn [shr_m shr_r shr_s] in IH.
    destruct IH as [Hmk Hex].
    assert (Hp : 0 < 2 ^ Z.of_nat k) by (apply Z.pow_pos_nonneg; lia).
    assert (0 <= mk) by (subst mk; apply Z.div_pos; lia).
    rewrite shr_1_spec by assumption. cbn [shr_m shr_r shr_s].
    rewrite Nat2Z.inj_succ, Z.pow_succ_r by lia.
    split.
    + subst mk. rewrite Z.div_div by lia. f_equal. lia.
    + intros Hmod.
      assert (Hdiv : m = 2 * 2 ^ Z.of_nat k * (m / (2 * 2 ^ Z.of_nat k))).
      { pose proof (Z.div_mod m (2 * 2 ^ Z.of_nat k)). lia. }
      set (c := m / (2 * 2 ^ Z.of_nat k)) in *.
      assert (Hmk2 : mk = 2 * c).
      { subst mk. rewrite Hdiv.
        replace (2 * 2 ^ Z.of_nat k * c) with ((2 * c) * 2 ^ Z.of_nat k) by lia.
        apply Z.div_mul. lia. }
      assert (Hmodk : m mod 2 ^ Z.of_nat k = 0).
      { rewrite Hdiv.
        replace (2 * 2 ^ Z.of_nat k * c) with ((2 * c) * 2 ^ Z.of_nat k) by lia.
        apply Z.mod_mul. lia. }
      destruct (Hex Hmodk) as [-> ->].
      rewrite Hmk2, Z.odd_mul. cbn. auto.
Qed.

Lemma round_nearest_even_bounds m l :
  m <= round_nearest_even m l <= m + 1.
Proof.
  unfold round_nearest_even. destruct l as [|[| |]]; try lia.
  destruct (Z.even m); lia.
Qed.

(** Shifting a positive mantissa to the exponent its size asks for. *)
Lemma shr_fexp_spec m e :
  0 <= m ->
  let n := Z.max 0 (fexp prec emax (Zdigits2 m + e) - e) in
  exists mrs,
    shr_fexp prec emax m e loc_Exact = (mrs, e + n) /\
    shr_m mrs = m / 2 ^ n /\
    (m mod 2 ^ n = 0 -> loc_of_shr_record mrs = loc_Exact).
Proof.
  intros Hm n. unfold shr_fexp, shr. cbn [shr_record_of_loc].
  subst n. destruct (fexp prec emax (Zdigits2 m + e) - e) as [|p|p] eqn:Hn.
  - eexists. split; [rewrite Z.add_0_r; reflexivity|]. cbn. rewrite Z.div_1_r. auto.
  - rewrite iter_pos_nat.
    pose proof (shr_iter_spec (Pos.to_nat p) m Hm) as H. cbn zeta in H.
    rewrite positive_nat_Z in H. destruct H as [H1 H2].
    eexists. split; [reflexivity|]. rewrite Z.max_r by lia.
    split; [exact H1|]. intros Hmod. destruct (H2 Hmod) as [Hr Hs].
    destruct (Nat.iter _ _ _) as [a b c]. cbn in *. subst. reflexivity.
  - eexists. split; [rewrite Z.add_0_r; reflexivity|]. cbn. rewrite Z.div_1_r. auto.
Qed.

(** ** float64: a product of at most nine *)

Lemma Zdigits2_bounds m :
  0 < m -> 2 ^ (Zdigits2 m - 1) <= m < 2 ^ Zdigits2 m.
Proof.
  destruct m as [|p|p]; try lia. intros _. cbn [Zdigits2]. apply digits2_pos_bounds.
Qed.

(** A value of at most nine keeps an exponent of at most -49 when it is
    brought to the exponent its size asks for. *)
Lemma fexp_small m e :
  0 <= m -> e <= -49 -> m <= 9 * 2 ^ (- e) ->
  e <= e + Z.max 0 (fexp prec emax (Zdigits2 m + e) - e) <= -49.
Proof.
  intros Hm He Hb. split; [lia|].
  enough (fexp prec emax (Zdigits2 m + e) <= -49) by lia.
  unfold fexp, SpecFloat.emin, prec, emax.
  enough (Zdigits2 m + e <= 4) by lia.
  destruct (Z.eq_dec m 0) as [->|Hne]; [cbn; lia|].
  pose proof (Zdigits2_bounds m ltac:(lia)) as [Hlo _].
  assert (Hlt : 2 ^ (Zdigits2 m - 1) < 2 ^ (4 - e)).
  { replace (4 - e) with (4 + - e) by lia. rewrite Z.pow_add_r by lia.
    change (2 ^ 4) with 16. assert (0 < 2 ^ (- e)) by (apply Z.pow_pos_nonneg; lia). lia. }
  apply Z.pow_lt_mono_r_iff in Hlt; lia.
Qed.

Lemma div_pow_bound m e n :
  0 <= n -> e + n <= 0 -> 0 <= m <= 9 * 2 ^ (- e) ->
  0 <= m / 2 ^ n <= 9 * 2 ^ (- (e + n)).
Proof.
  intros Hn He [Hm Hb].
  assert (Hp : 0 < 2 ^ n) by (apply Z.pow_pos_nonneg; lia).
  split; [apply Z.div_pos; lia|].
  replace (- e) with (- (e + n) + n) in Hb by lia.
  rewrite Z.pow_add_r in Hb by lia.
  apply Z.div_le_upper_bound; [lia|]. lia.
Qed.

(** Rounding a positive value of at most nine gives at most nine. *)
Lemma binary_round_aux_le_nine mx ex :
  0 < mx -> ex <= -49 -> mx <= 9 * 2 ^ (- ex) ->
  binary_round_aux prec emax false mx ex loc_Exact = S754_zero false \/
  exists m e,
    binary_round_aux prec emax false mx ex loc_Exact = S754_finite false m e /\
    e <= -49 /\ Z.pos m <= 9 * 2 ^ (- e).
Proof.
  intros Hmx Hex Hb.
  destruct (shr_fexp_spec mx ex ltac:(lia)) as (mrs1 & Hs1 & Hm1 & Hloc1).
  pose proof (fexp_small mx ex ltac:(lia) Hex Hb) as He1.
  set (n1 := Z.max 0 (fexp prec emax (Zdigits2 mx + ex) - ex)) in *.
  set (e1 := ex + n1) in *.
  assert (Hn1 : 0 <= n1) by (unfold n1; lia).
  pose proof (div_pow_bound mx ex n1 Hn1 ltac:(fold e1; lia) ltac:(lia)) as Hdiv1.
  fold e1 in Hdiv1. rewrite <- Hm1 in Hdiv1.
  set (m1 := round_nearest_even (shr_m mrs1) (loc_of_shr_record mrs1)).
  assert (Hm1b : 0 <= m1 <= 9 * 2 ^ (- e1)).
  { pose proof (round_nearest_even_bounds (shr_m mrs1) (loc_of_shr_record mrs1)) as Hr.
    fold m1 in Hr. split; [lia|].
    destruct (Z.eq_dec (shr_m mrs1) (9 * 2 ^ (- e1))) as [Heq|Hne]; [|lia].
    (* the quotient is exactly nine: nothing was lost in the shift *)
    assert (Hp : 0 < 2 ^ n1) by (apply Z.pow_pos_nonneg; lia).
    assert (Hle : 2 ^ n1 * (mx / 2 ^ n1) <= mx) by (apply Z.mul_div_le; lia).
    rewrite <- Hm1, Heq in Hle.
    assert (Hpow : 2 ^ (- ex) = 2 ^ (- e1) * 2 ^ n1).
    { rewrite <- Z.pow_add_r by lia. f_equal. unfold e1. lia. }
    assert (Hmx' : mx = (9 * 2 ^ (- e1)) * 2 ^ n1) by (rewrite Hpow in Hb; lia).
    assert (Hmod : mx mod 2 ^ n1 = 0) by (rewrite Hmx'; apply Z.mod_mul; lia).
    unfold m1. rewrite (Hloc1 Hmod). cbn. lia. }
  destruct (shr_fexp_spec m1 e1 ltac:(lia)) as (mrs2 & Hs2 & Hm2 & _).
  pose proof (fexp_small m1 e1 ltac:(lia) ltac:(lia) ltac:(lia)) as He2.
  set (n2 := Z.max 0 (fexp prec emax (Zdigits2 m1 + e1) - e1)) in *.
  set (e2 := e1 + n2) in *.
  assert (Hn2 : 0 <= n2) by (unfold n2; lia).
  pose proof (div_pow_bound m1 e1 n2 Hn2 ltac:(fold e2; lia) Hm1b) as Hdiv2.
  fold e2 in Hdiv2. rewrite <- Hm2 in Hdiv2.
  unfold binary_round_aux. rewrite Hs1. fold m1. rewrite Hs2.
  destruct (shr_m mrs2) as [|p|p] eqn:Hp.
  - left. reflexivity.
  - right. exists p, e2.
    destruct (Z.leb_spec e2 (emax - prec)) as [_|Hbad]; [|unfold emax, prec in Hbad; lia].
    split; [reflexivity|]. split; lia.
  - lia.
Qed.

(** ** The glyph index *)

Lemma nine_eq : nine = 9%float.
Proof. vm_compute. reflexivity. Qed.

Lemma Prim2SF_nine : Prim2SF nine = S754_finite false 5066549580791808 (-49).
Proof. vm_compute. reflexivity. Qed.

Lemma Prim2SF_zero : Prim2SF 0%float = S754_zero false.
Proof. vm_compute. reflexivity. Qed.

Lemma Prim2SF_one : Prim2SF 1%float = S754_finite false 4503599627370496 (-52).
Proof. vm_compute. reflexivity. Qed.

Lemma mul_nine_le_nine (L : float) :
  (0 <=? L)%float = true -> (L <=? 1)%float = true ->
  le_nine (Prim2SF (L * nine)).
Proof.
  rewrite !FloatAxioms.leb_spec, Prim2SF_zero, Prim2SF_one.
  rewrite FloatAxioms.mul_spec, Prim2SF_nine.
  pose proof (Prim2SF_valid L) as Hvalid.
  destruct (Prim2SF L) as [s|s| |s m e]; cbn [valid_binary] in Hvalid.
  - intros _ _. left. exists (xorb s false). reflexivity.
  - destruct s; cbn; discriminate.
  - cbn. discriminate.
  - unfold SFleb, SFcompare. destruct s; [discriminate|]. intros _ Hle.
    apply bounded_digits in Hvalid as (Hd & He & _).
    pose proof (digits2_pos_bounds m) as [_ Hm].
    assert (Hm53 : Z.pos m < 2 ^ 53).
    { eapply Z.lt_le_trans; [exact Hm|]. apply Z.pow_le_mono_r; lia. }
    assert (Hone : e <= -52 /\ Z.pos m <= 2 ^ (- e)).
    { destruct (Z.compare_spec e (-52)) as [->|Hlt|Hgt]; try discriminate.
      - pose proof (Z.compare_spec (Z.pos m) 4503599627370496) as Hc.
        change (Z.pos m ?= 4503599627370496)
          with (Pos.compare_cont Eq m 4503599627370496) in Hc.
        destruct Hc; try discriminate;
          change (2 ^ (- -52)) with 4503599627370496; lia.
      - assert (2 ^ 53 <= 2 ^ (- e)) by (apply Z.pow_le_mono_r; lia). lia. }
    destruct Hone as [He52 Hone].
    unfold SF64mul, SFmul. cbn [xorb].
    destruct (binary_round_aux_le_nine (Z.pos (m * 5066549580791808)) (e + -49))
      as [Hz|(m' & e' & Hf & He' & Hb)].
    + lia.
    + lia.
    + rewrite Pos2Z.inj_mul. replace (- (e + -49)) with (- e + 49) by lia.
      rewrite Z.pow_add_r by lia. change (2 ^ 49) with 562949953421312.
      change (Z.pos 5066549580791808) with (9 * 562949953421312). lia.
    + left. exists false. exact Hz.
    + right. exists m', e'. auto.
Qed.

(** Truncation of such a float. *)
Lemma int_of_float64_le_nine (x : float) :
  le_nine (Prim2SF x) ->
  0 <= int_of_float64 x <= 9 /\
  (forall m e, Prim2SF x = S754_finite false m e ->
               int_of_float64 x = Z.pos m / 2 ^ (- e)).
Proof.
  unfold int_of_float64.
  intros [(s & ->)|(m & e & -> & He & Hb)].
  - split; [lia|]. discriminate.
  - destruct (Z.leb_spec 0 e); [lia|].
    assert (Hp : 0 < 2 ^ (- e)) by (apply Z.pow_pos_nonneg; lia).
    assert (Hv : 0 <= Z.pos m / 2 ^ (- e) <= 9).
    { split; [apply Z.div_pos; lia|]. apply Z.div_le_upper_bound; lia. }
    assert (Hr : (int_min <=? Z.pos m / 2 ^ (- e)) && (Z.pos m / 2 ^ (- e) <=? int_max) = true).
    { unfold int_min, int_max. apply andb_true_intro. split; apply Z.leb_le; lia. }
    rewrite Hr. split; [exact Hv|].
    intros m0 e0 H0. inversion H0; subst. reflexivity.
Qed.

Lemma glyph_index_le_nine (L : float) :
  le_nine (Prim2SF (L * nine)) ->
  glyph_index L = int_of_float64 (L * nine) /\ 0 <= glyph_index L <= 9.
Proof.
  intros H. apply int_of_float64_le_nine in H as [Hr _].
  unfold glyph_index. fold nine.
  change (len_string ASCII_CHARS) with 10.
  destruct (Z.leb_spec 10 (int_of_float64 (L * nine))); [lia|].
  split; [reflexivity|lia].
Qed.

Lemma string_index_gradient (i : Z) :
  0 <= i <= 9 ->
  exists c, string_index ASCII_CHARS i = Ret c /\
            String.get (Z.to_nat i) ASCII_CHARS = Some c.
Proof.
  intros Hi. unfold string_index. change (len_string ASCII_CHARS) with 10.
  destruct (Z.ltb_spec i 0); [lia|]. destruct (Z.leb_spec 10 i); [lia|].
  cbn [orb].
  assert (Hc : i = 0 \/ i = 1 \/ i = 2 \/ i = 3 \/ i = 4 \/ i = 5 \/ i = 6
               \/ i = 7 \/ i = 8 \/ i = 9) by lia.
  repeat (destruct Hc as [->|Hc]; [eexists; split; reflexivity|]).
  subst. eexists; split; reflexivity.
Qed.

(** C2.  For every luminance in [0, 1] the index that [brightnessToASCII]
    computes lies between 0 and 9, the ends 0.0 and 1.0 included, and the
    glyph it returns is the character of the gradient at that index. *)
Theorem glyph_index_in_gradient (L : float) :
  (0 <=? L)%float = true -> (L <=? 1)%float = true ->
  0 <= glyph_index L <= len_string ASCII_CHARS - 1 /\
  exists c, brightnessToASCII L = Ret c /\
            String.get (Z.to_nat (glyph_index L)) ASCII_CHARS = Some c.
Proof.
  intros H0 H1.
  destruct (glyph_index_le_nine L (mul_nine_le_nine L H0 H1)) as [_ Hr].
  split; [exact Hr|]. apply string_index_gradient. exact Hr.
Qed.

Lemma glyph_index_in_gradient_witness :
  0 <= glyph_index 1%float <= len_string ASCII_CHARS - 1 /\
  exists c, brightnessToASCII 1%float = Ret c /\
            String.get (Z.to_nat (glyph_index 1%float)) ASCII_CHARS = Some c.
Proof.
  apply (glyph_index_in_gradient 1%float); vm_compute; reflexivity.
Defined.

(** Truncation is monotone on these floats. *)
Lemma int_of_float64_mono (x y : float) :
  le_nine (Prim2SF x) -> le_nine (Prim2SF y) ->
  (x <=? y)%float = true ->
  int_of_float64 x <= int_of_float64 y.
Proof.
  intros Hx Hy. rewrite FloatAxioms.leb_spec.
  pose proof (int_of_float64_le_nine x Hx) as [Hrx Hfx].
  pose proof (int_of_float64_le_nine y Hy) as [Hry Hfy].
  pose proof (Prim2SF_valid x) as Hvx. pose proof (Prim2SF_valid y) as Hvy.
  destruct Hx as [(sx & Hx)|(mx & ex & Hx & Hex & Hbx)].
  - intros _. unfold int_of_float64 at 1. rewrite Hx. lia.
  - destruct Hy as [(sy & Hy)|(my & ey & Hy & Hey & Hby)].
    + rewrite Hx, Hy. cbn. discriminate.
    + rewrite (Hfx _ _ Hx), (Hfy _ _ Hy). rewrite Hx, Hy in *.
      cbn [valid_binary] in Hvx, Hvy.
      apply bounded_digits in Hvx as (Hdx & Hrx' & _).
      apply bounded_digits in Hvy as (Hdy & Hry' & Hny).
      unfold SFleb, SFcompare.
      assert (Hpx : 0 < 2 ^ (- ex)) by (apply Z.pow_pos_nonneg; lia).
      destruct (Z.compare_spec ex ey) as [->|Hlt|Hgt]; try discriminate.
      * pose proof (Z.compare_spec (Z.pos mx) (Z.pos my)) as Hc.
        change (Z.pos mx ?= Z.pos my) with (Pos.compare_cont Eq mx my) in Hc.
        destruct Hc; try discriminate; intros _;
          apply Z.div_le_mono; lia.
      * intros _.
        pose proof (digits2_pos_bounds mx) as [_ Hmx].
        pose proof (digits2_pos_bounds my) as [Hmy _].
        rewrite (Hny ltac:(lia)) in Hmy. change (2 ^ (53 - 1)) with (2 ^ 52) in Hmy.
        assert (Hmx53 : Z.pos mx < 2 ^ 53).
        { eapply Z.lt_le_trans; [exact Hmx|]. apply Z.pow_le_mono_r; lia. }
        assert (Hk : 2 <= 2 ^ (ey - ex)).
        { change 2 with (2 ^ 1) at 1. apply Z.pow_le_mono_r; lia. }
        assert (Hpow : 2 ^ (- ex) = 2 ^ (- ey) * 2 ^ (ey - ex)).
        { rewrite <- Z.pow_add_r by lia. f_equal. lia. }
        assert (Hpy : 0 < 2 ^ (- ey)) by (apply Z.pow_pos_nonneg; lia).
        rewrite <- (Z.div_mul_cancel_r (Z.pos my) (2 ^ (- ey)) (2 ^ (ey - ex))) by lia.
        rewrite <- Hpow. apply Z.div_le_mono; [lia|].
        change (2 ^ 53) with (2 ^ 52 * 2) in Hmx53. nia.
Qed.

(** ** The luminance of every pixel, by enumeration *)

Lemma red_ascends :
  ascends (fun tg tb tr => mix tr tg tb)
          (weighted weight_green) (weighted weight_blue) (weighted weight_red) = true.
Proof. vm_cast_no_check (eq_refl true). Qed.

Lemma green_ascends :
  ascends (fun tr tb tg => mix tr tg tb)
          (weighted weight_red) (weighted weight_blue) (weighted weight_green) = true.
Proof. vm_cast_no_check (eq_refl true). Qed.

Lemma blue_ascends :
  ascends (fun tr tg tb => mix tr tg tb)
          (weighted weight_red) (weighted weight_green) (weighted weight_blue) = true.
Proof. vm_cast_no_check (eq_refl true). Qed.

Lemma weighted_nth (w : float) (c : Z) :
  0 <= c <= 255 ->
  nth_error (weighted w) (Z.to_nat c) = Some (w * float64_of_int c)%float.
Proof.
  intros H. unfold weighted, channel.
  rewrite nth_error_map, nth_error_map.
  rewrite (nth_error_nth' _ 0%nat) by (rewrite length_seq; lia).
  rewrite seq_nth by lia. cbn [option_map]. do 3 f_equal. lia.
Qed.

Lemma weighted_In (w : float) (c : Z) :
  0 <= c <= 255 -> In (w * float64_of_int c)%float (weighted w).
Proof.
  intros H. eapply nth_error_In. apply weighted_nth. exact H.
Qed.

Lemma climbs_spec n9 lum row :
  forall p, in_unit (lum p) = true ->
  climbs n9 lum (lum p) (lum p * n9)%float row = true ->
  forall k x y, nth_error (p :: row) k = Some x ->
                nth_error (p :: row) (S k) = Some y ->
                step_ok n9 (lum x) (lum y) = true.
Proof.
  induction row as [|t row IH]; intros p Hp H k x y Hx Hy.
  - destruct k; discriminate.
  - cbn [climbs] in H. cbv zeta in H.
    apply andb_true_iff in H as [H Hrest]. apply andb_true_iff in H as [H H9].
    apply andb_true_iff in H as [Ht Hle].
    destruct k as [|k].
    + cbn in Hx, Hy. injection Hx as <-. injection Hy as <-.
      unfold step_ok. rewrite Hp, Ht, Hle, H9. reflexivity.
    + apply (IH t Ht Hrest k); assumption.
Qed.

Lemma climbs_from_spec n9 lum row :
  climbs_from n9 lum row = true ->
  forall k x y, nth_error row k = Some x -> nth_error row (S k) = Some y ->
                step_ok n9 (lum x) (lum y) = true.
Proof.
  destruct row as [|p row]; intros H k x y Hx Hy; [destruct k; discriminate|].
  cbn [climbs_from] in H. cbv zeta in H. apply andb_true_iff in H as [Hp H].
  exact (climbs_spec n9 lum row p Hp H k x y Hx Hy).
Qed.

Lemma ascends_spec mk U V T :
  ascends mk U V T = true ->
  forall u v, In u U -> In v V ->
  forall k x y, nth_error T k = Some x -> nth_error T (S k) = Some y ->
                step_ok nine (mk u v x) (mk u v y) = true.
Proof.
  unfold ascends. intros H u v Hu Hv k x y Hx Hy.
  rewrite forallb_forall in H. specialize (H u Hu).
  rewrite forallb_forall in H. specialize (H v Hv).
  exact (climbs_from_spec nine (mk u v) T H k x y Hx Hy).
Qed.

(** One step of one channel, on the 8-bit channels. *)
Lemma red_step g b c :
  0 <= g <= 255 -> 0 <= b <= 255 -> 0 <= c < 255 ->
  step_ok nine (luminance c g b) (luminance (c + 1) g b) = true.
Proof.
  intros Hg Hb Hc.
  assert (H1 : nth_error (weighted weight_red) (S (Z.to_nat c))
               = Some (weight_red * float64_of_int (c + 1))%float).
  { replace (S (Z.to_nat c)) with (Z.to_nat (c + 1)) by lia.
    apply weighted_nth. lia. }
  exact (ascends_spec (fun tg tb tr => mix tr tg tb)
           (weighted weight_green) (weighted weight_blue) (weighted weight_red) red_ascends
           (weight_green * float64_of_int g)%float (weight_blue * float64_of_int b)%float
           (weighted_In weight_green g Hg) (weighted_In weight_blue b Hb) (Z.to_nat c)
           (weight_red * float64_of_int c)%float (weight_red * float64_of_int (c + 1))%float
           (weighted_nth weight_red c ltac:(lia)) H1).
Qed.

Lemma green_step r b c :
  0 <= r <= 255 -> 0 <= b <= 255 -> 0 <= c < 255 ->
  step_ok nine (luminance r c b) (luminance r (c + 1) b) = true.
Proof.
  intros Hr Hb Hc.
  assert (H1 : nth_error (weighted weight_green) (S (Z.to_nat c))
               = Some (weight_green * float64_of_int (c + 1))%float).
  { replace (S (Z.to_nat c)) with (Z.to_nat (c + 1)) by lia.
    apply weighted_nth. lia. }
  exact (ascends_spec (fun tr tb tg => mix tr tg tb)
           (weighted weight_red) (weighted weight_blue) (weighted weight_green) green_ascends
           (weight_red * float64_of_int r)%float (weight_blue * float64_of_int b)%float
           (weighted_In weight_red r Hr) (weighted_In weight_blue b Hb) (Z.to_nat c)
           (weight_green * float64_of_int c)%float (weight_green * float64_of_int (c + 1))%float
           (weighted_nth weight_green c ltac:(lia)) H1).
Qed.

Lemma blue_step r g c :
  0 <= r <= 255 -> 0 <= g <= 255 -> 0 <= c < 255 ->
  step_ok nine (luminance r g c) (luminance r g (c + 1)) = true.
Proof.
  intros Hr Hg Hc.
  assert (H1 : nth_error (weighted weight_blue) (S (Z.to_nat c))
               = Some (weight_blue * float64_of_int (c + 1))%float).
  { replace (S (Z.to_nat c)) with (Z.to_nat (c + 1)) by lia.
    apply weighted_nth. lia. }
  exact (ascends_spec (fun tr tg tb => mix tr tg tb)
           (weighted weight_red) (weighted weight_green) (weighted weight_blue) blue_ascends
           (weight_red * float64_of_int r)%float (weight_green * float64_of_int g)%float
           (weighted_In weight_red r Hr) (weighted_In weight_green g Hg) (Z.to_nat c)
           (weight_blue * float64_of_int c)%float (weight_blue * float64_of_int (c + 1))%float
           (weighted_nth weight_blue c ltac:(lia)) H1).
Qed.

(** ** Monotonicity *)

Lemma SFleb_refl x : x <> S754_nan -> SFleb x x = true.
Proof.
  unfold SFleb, SFcompare. destruct x as [s|s| |s m e]; try congruence;
    destruct s; try reflexivity; intros _;
    rewrite Z.compare_refl, Pos.compare_cont_refl; reflexivity.
Qed.

Lemma leb_refl_unit (L : float) : in_unit L = true -> (L <=? L)%float = true.
Proof.
  unfold in_unit. intros H. apply andb_true_iff in H as [H _].
  rewrite FloatAxioms.leb_spec in *. apply SFleb_refl.
  intros Hn. rewrite Hn in H. destruct (Prim2SF 0); discriminate.
Qed.

Lemma step_ok_spec a c :
  step_ok nine a c = true ->
  in_unit a = true /\ in_unit c = true /\ (a <=? c)%float = true /\
  glyph_index a <= glyph_index c.
Proof.
  unfold step_ok. intros H.
  apply andb_true_iff in H as [H H9]. apply andb_true_iff in H as [H Hle].
  apply andb_true_iff in H as [Ha Hc].
  repeat split; try assumption.
  unfold in_unit in Ha, Hc.
  apply andb_true_iff in Ha as [Ha0 Ha1]. apply andb_true_iff in Hc as [Hc0 Hc1].
  pose proof (mul_nine_le_nine a Ha0 Ha1) as Hna.
  pose proof (mul_nine_le_nine c Hc0 Hc1) as Hnc.
  destruct (glyph_index_le_nine a Hna) as [-> _].
  destruct (glyph_index_le_nine c Hnc) as [-> _].
  apply int_of_float64_mono; assumption.
Qed.

(** From one step to any distance. *)
Lemma ascent (f : Z -> float) :
  (forall c, 0 <= c < 255 -> step_ok nine (f c) (f (c + 1)) = true) ->
  forall c c', 0 <= c <= c' -> c' <= 255 ->
    in_unit (f c) = true /\ (f c <=? f c')%float = true /\
    glyph_index (f c) <= glyph_index (f c').
Proof.
  intros Hstep c c' Hc Hc'.
  assert (Hunit : forall x, 0 <= x <= 255 -> in_unit (f x) = true).
  { intros x Hx. destruct (Z.eq_dec x 255) as [->|Hne].
    - destruct (step_ok_spec _ _ (Hstep 254 ltac:(lia))) as (_ & H & _). exact H.
    - destruct (step_ok_spec _ _ (Hstep x ltac:(lia))) as (H & _). exact H. }
  split; [apply Hunit; lia|].
  assert (Hn : forall n : nat, c + Z.of_nat n <= 255 ->
             (f c <=? f (c + Z.of_nat n)%Z)%float = true /\
             glyph_index (f c) <= glyph_index (f (c + Z.of_nat n))).
  { induction n as [|n IH]; intros Hn.
    - rewrite Z.add_0_r. split; [apply leb_refl_unit, Hunit; lia|lia].
    - destruct IH as [IH1 IH2]; [lia|].
      destruct (step_ok_spec _ _ (Hstep (c + Z.of_nat n) ltac:(lia))) as (_ & _ & H1 & H2).
      replace (c + Z.of_nat (S n)) with (c + Z.of_nat n + 1) by lia.
      split; [eapply leb_trans; eassumption|lia]. }
  replace c' with (c + Z.of_nat (Z.to_nat (c' - c))) by lia.
  apply Hn. lia.
Qed.

(** C6.  On the pixels of 8-bit channels the luminance does not decrease
    when one of R, G, B grows and the other two stay; so a pixel that is at
    least another in every channel gets a glyph index that is at least the
    other's. *)
Theorem luminance_monotone :
  (forall r r' g b, 0 <= r <= r' -> r' <= 255 -> 0 <= g <= 255 -> 0 <= b <= 255 ->
      (luminance r g b <=? luminance r' g b)%float = true) /\
  (forall r g g' b, 0 <= r <= 255 -> 0 <= g <= g' -> g' <= 255 -> 0 <= b <= 255 ->
      (luminance r g b <=? luminance r g' b)%float = true) /\
  (forall r g b b', 0 <= r <= 255 -> 0 <= g <= 255 -> 0 <= b <= b' -> b' <= 255 ->
      (luminance r g b <=? luminance r g b')%float = true) /\
  (forall r g b r' g' b',
      0 <= r <= r' -> r' <= 255 -> 0 <= g <= g' -> g' <= 255 ->
      0 <= b <= b' -> b' <= 255 ->
      glyph_index (luminance r g b) <= glyph_index (luminance r' g' b')).
Proof.
  pose proof red_step as Hr. pose proof green_step as Hg.
  pose proof blue_step as Hb.
  split; [|split; [|split]].
  - intros r r' g b H1 H2 H3 H4.
    apply (ascent (fun r => luminance r g b)); try assumption.
    intros c Hc. apply (Hr g b c); lia.
  - intros r g g' b H1 H2 H3 H4.
    apply (ascent (fun g => luminance r g b)); try assumption.
    intros c Hc. apply (Hg r b c); lia.
  - intros r g b b' H1 H2 H3 H4.
    apply (ascent (fun b => luminance r g b)); try assumption.
    intros c Hc. apply (Hb r g c); lia.
  - intros r g b r' g' b' H1 H2 H3 H4 H5 H6.
    assert (glyph_index (luminance r g b) <= glyph_index (luminance r' g b)).
    { apply (ascent (fun r => luminance r g b)); try assumption.
      intros c Hc. apply (Hr g b c); lia. }
    assert (glyph_index (luminance r' g b) <= glyph_index (luminance r' g' b)).
    { apply (ascent (fun g => luminance r' g b)); try assumption.
      intros c Hc. apply (Hg r' b c); lia. }
    assert (glyph_index (luminance r' g' b) <= glyph_index (luminance r' g' b')).
    { apply (ascent (fun b => luminance r' g' b)); try assumption.
      intros c Hc. apply (Hb r' g' c); lia. }
    lia.
Qed.

Lemma luminance_monotone_witness :
  (luminance 10 20 30 <=? luminance 200 20 30)%float = true /\
  glyph_index (luminance 10 20 30) <= glyph_index (luminance 200 220 240).
Proof.
  destruct luminance_monotone as (Hr & _ & _ & Hall).
  split; [apply Hr; lia | apply Hall; lia].
Defined.
